(** * OtpInput: the segmented one-time-password entry control

    A shallow embedding of [src/components/OtpInput.tsx].  The component
    keeps one piece of React state, the array [otp] of slot values, and
    three event handlers ([handleChange], [handleClick], [handleKeyDown])
    that read it.  A handler is embedded as a function from the current
    render's [otp] and the event's data to the ordered list of effects it
    performs: [setOtp], [onOtpSubmit], [focus()] on a slot's input and
    [setSelectionRange]. *)

From Stdlib Require Import ZArith NArith.
From stdpp Require Import base list strings.

Local Open Scope N_scope.

(** ** JavaScript strings

    A JavaScript string is a sequence of UTF-16 code units; [value.length]
    counts code units and [substring] cuts between them. *)

Abbreviation js_string := (list N).

(** The code units of an ASCII literal, to write examples. *)
Definition js (s : string) : js_string :=
  map Ascii.N_of_ascii (String.list_ascii_of_string s).

(** [s.substring(start)]: a start below 0 is taken as 0 and one above the
    length as the length. *)
Definition substring (s : js_string) (start : Z) : js_string :=
  drop (Z.to_nat (Z.min (Z.max start 0) (Z.of_nat (length s)))) s.

(** A string in a condition ([if (value)], [!val]) is true exactly when it
    is not empty. *)
Definition truthy (s : js_string) : bool :=
  match s with
  | [] => false
  | _ :: _ => true
  end.

(** ** [Number(value)] and [isNaN]

    ECMA-262 StringToNumber: the result is NaN exactly when the text is not
    a StringNumericLiteral.  A literal too large for a double converts to an
    infinity, which is not NaN, so only the grammar matters to [isNaN]. *)

(** WhiteSpace and LineTerminator code units: TAB, LF, VT, FF, CR, the
    space separators (Unicode category Zs), LS, PS and the byte order
    mark. *)
Definition StrWhiteSpaceChar (c : N) : bool :=
  (c =? 9) || (c =? 10) || (c =? 11) || (c =? 12) || (c =? 13)
  || (c =? 0x20) || (c =? 0xA0) || (c =? 0x1680)
  || ((0x2000 <=? c) && (c <=? 0x200A))
  || (c =? 0x2028) || (c =? 0x2029) || (c =? 0x202F) || (c =? 0x205F)
  || (c =? 0x3000) || (c =? 0xFEFF).

Definition DecimalDigit (c : N) : bool := (48 <=? c) && (c <=? 57).
Definition BinaryDigit (c : N) : bool := (c =? 48) || (c =? 49).
Definition OctalDigit (c : N) : bool := (48 <=? c) && (c <=? 55).
Definition HexDigit (c : N) : bool :=
  DecimalDigit c || ((97 <=? c) && (c <=? 102)) || ((65 <=? c) && (c <=? 70)).

Fixpoint skip (p : N → bool) (s : js_string) : js_string :=
  match s with
  | c :: r => if p c then skip p r else s
  | [] => []
  end.

Definition trim (s : js_string) : js_string :=
  rev (skip StrWhiteSpaceChar (rev (skip StrWhiteSpaceChar s))).

(** One or more characters, all of the class [p]. *)
Definition digits (p : N → bool) (s : js_string) : bool :=
  truthy s && forallb p s.

Definition starts_with (p : N → bool) (s : js_string) : bool :=
  match s with
  | c :: _ => p c
  | [] => false
  end.

Definition is_sign (c : N) : bool := (c =? 43) || (c =? 45).

Definition unsigned (s : js_string) : js_string :=
  match s with
  | c :: r => if is_sign c then r else s
  | [] => []
  end.

(** ExponentPart, optional: nothing, or [e]/[E] and a SignedInteger. *)
Definition ExponentPart_opt (s : js_string) : bool :=
  match s with
  | [] => true
  | c :: r => ((c =? 101) || (c =? 69)) && digits DecimalDigit (unsigned r)
  end.

(** StrUnsignedDecimalLiteral: [Infinity], or digits with an optional
    fraction and exponent, where the digits before or after the dot may be
    missing but not both. *)
Definition StrUnsignedDecimalLiteral (s : js_string) : bool :=
  if decide (s = js "Infinity") then true
  else
    match skip DecimalDigit s with
    | c :: r =>
        if c =? 46
        then (starts_with DecimalDigit s || starts_with DecimalDigit r)
             && ExponentPart_opt (skip DecimalDigit r)
        else starts_with DecimalDigit s && ExponentPart_opt (c :: r)
    | [] => starts_with DecimalDigit s
    end.

Definition StrDecimalLiteral (s : js_string) : bool :=
  StrUnsignedDecimalLiteral (unsigned s).

(** NonDecimalIntegerLiteral: [0b], [0o] or [0x] (either case) and one or
    more digits of that base; no sign. *)
Definition NonDecimalIntegerLiteral (s : js_string) : bool :=
  match s with
  | z :: c :: r =>
      (z =? 48)
      && ((((c =? 98) || (c =? 66)) && digits BinaryDigit r)
          || (((c =? 111) || (c =? 79)) && digits OctalDigit r)
          || (((c =? 120) || (c =? 88)) && digits HexDigit r))
  | _ => false
  end.

(** StringNumericLiteral: white space alone (also none), or a literal with
    white space around it. *)
Definition StringNumericLiteral (s : js_string) : bool :=
  let t := trim s in
  negb (truthy t) || StrDecimalLiteral t || NonDecimalIntegerLiteral t.

(** [isNaN(Number(value))]. *)
Definition isNaN_Number (value : js_string) : bool :=
  negb (StringNumericLiteral value).

(** ** Arrays

    [otp] is a [string[]]: a list of strings read with [otp !! j], where
    [None] is the [undefined] of an index past the end. *)

(** [!otp[j]]: true for the empty string and for [undefined]. *)
Definition falsy (v : option js_string) : bool :=
  match v with
  | Some s => negb (truthy s)
  | None => true
  end.

(** [a[index] = v].  Below the length the element is replaced.  At or past
    the length JavaScript grows the array up to [index], leaving holes at
    the positions it skips; [join], [!] and [findIndex] read a hole as they
    read the empty string, which is what the skipped positions hold here. *)
Definition array_set (a : list js_string) (index : nat) (v : js_string)
  : list js_string :=
  if decide (index < length a)%nat then <[index:=v]> a
  else a ++ replicate (index - length a) [] ++ [v].

(** [a.join] with the empty separator. *)
Definition join (a : list js_string) : js_string := concat a.

(** [a.findIndex(p)], counting from [k]: the index of the first element
    that satisfies [p], or -1. *)
Fixpoint findIndex_from (p : js_string → bool) (a : list js_string) (k : Z)
  : Z :=
  match a with
  | [] => (-1)%Z
  | x :: r => if p x then k else findIndex_from p r (k + 1)%Z
  end.

Definition findIndex (p : js_string → bool) (a : list js_string) : Z :=
  findIndex_from p a 0%Z.

(** ** The component *)

Local Close Scope N_scope.

Module OtpInput.

(** What a handler does to the world, in the order it does it. *)
Inductive effect : Type :=
| SetOtp (newOtp : list js_string)
| OnOtpSubmit (otp : js_string)
| Focus (index : nat)
| SetSelectionRange (index : nat) (selectionStart selectionEnd : Z).

Inductive event : Type :=
| Change (index : nat) (value : js_string)
| Click (index : nat)
| KeyDown (index : nat) (key : js_string).

(** The slot whose input element received the event. *)
Definition slot (e : event) : nat :=
  match e with
  | Change index _ | Click index | KeyDown index _ => index
  end.

Section Component.

(** The [length] prop.  Inside this section the length of a list is written
    [List.length]. *)
Variable length : nat.

(** The initial state of [useState]: [Array(length)] filled with the empty
    string. *)
Definition initial : list js_string := replicate length [].

Section Render.

(** The state as the current render sees it. *)
Variable otp : list js_string.

(** The render maps every slot of [otp] to an input and stores its element
    at [inputRefs.current[index]], so the ref at [j] is an element exactly
    for [j] below the number of slots; [?.] skips the call otherwise. *)
Definition focus_ref (j : nat) : list effect :=
  if decide (j < List.length otp)%nat then [Focus j] else [].

Definition setSelectionRange_ref (j : nat) (s e : Z) : list effect :=
  if decide (j < List.length otp)%nat then [SetSelectionRange j s e] else [].

Definition handleChange (index : nat) (value : js_string) : list effect :=
  if isNaN_Number value then []
  else
    let newOtp :=
      array_set otp index
        (substring value (Z.of_nat (List.length value) - 1)) in
    let combinedOtp := join newOtp in
    [SetOtp newOtp]
    ++ (if decide (List.length combinedOtp = length)
        then [OnOtpSubmit combinedOtp] else [])
    ++ (if truthy value
           && bool_decide (Z.of_nat index < Z.of_nat length - 1)%Z
        then focus_ref (index + 1) else [])
    ++ (if negb (truthy value) && bool_decide (0 < index)%nat
        then focus_ref (index - 1) else []).

Definition handleClick (index : nat) : list effect :=
  setSelectionRange_ref index 1 1
  ++ (if bool_decide (0 < index)%nat && falsy (otp !! (index - 1)%nat)
      then
        let firstEmptyIndex := findIndex (λ val, negb (truthy val)) otp in
        if decide (firstEmptyIndex ≠ (-1)%Z)
        then focus_ref (Z.to_nat firstEmptyIndex) else []
      else []).

Definition handleKeyDown (index : nat) (key : js_string) : list effect :=
  if bool_decide (key = js "Backspace")
     && falsy (otp !! index)
     && bool_decide (0 < index)%nat
  then focus_ref (index - 1) else [].

Definition handle (e : event) : list effect :=
  match e with
  | Change index value => handleChange index value
  | Click index => handleClick index
  | KeyDown index key => handleKeyDown index key
  end.

End Render.

(** *** Reading a handler's effects *)

(** The state of the next render: the argument of the last [setOtp], the
    state as it was when there is none. *)
Definition next_otp (otp : list js_string) (effects : list effect)
  : list js_string :=
  foldl (λ s x, match x with SetOtp newOtp => newOtp | _ => s end)
    otp effects.

(** The arguments of the calls of the completion callback, in order. *)
Definition submitted (effects : list effect) : list js_string :=
  omap (λ x, match x with OnOtpSubmit s => Some s | _ => None end) effects.

(** The slots [focus()] was called on, in order. *)
Definition focus_calls (effects : list effect) : list nat :=
  omap (λ x, match x with Focus j => Some j | _ => None end) effects.

(** The slot that holds the focus after an event at slot [index], whose
    input has the focus when its handler starts. *)
Definition focus_after (index : nat) (effects : list effect) : nat :=
  List.last (focus_calls effects) index.

(** *** Runs of the component

    The states a mounted component can be in: the initial one, and the one
    after any event on a rendered slot.  A change may carry any text here,
    which is more than the rendered inputs report (see
    [reachable_by_inputs]); what holds of these states holds of the
    component's. *)
Inductive reachable : list js_string → Prop :=
| reachable_mount : reachable initial
| reachable_event otp e :
    reachable otp →
    (slot e < List.length otp)%nat →
    reachable (next_otp otp (handle otp e)).

(** The state after a sequence of events, each on a rendered slot. *)
Fixpoint run (otp : list js_string) (events : list event)
  : option (list js_string) :=
  match events with
  | [] => Some otp
  | e :: rest =>
      if decide (slot e < List.length otp)%nat
      then run (next_otp otp (handle otp e)) rest
      else None
  end.

End Component.

(** *** The specification's vocabulary *)

(** The effective value of a change: the last character of the input text,
    or the empty string when the text is empty. *)
Definition last_character (value : js_string) : js_string :=
  match last value with
  | Some c => [c]
  | None => []
  end.

(** A slot value as the data model describes it: empty, or one of the
    digits 0 to 9. *)
Definition digit_or_empty (s : js_string) : bool :=
  match s with
  | [] => true
  | [c] => DecimalDigit c
  | _ :: _ :: _ => false
  end.

(** What the code does keep of that: no slot holds more than one code
    unit. *)
Definition at_most_one (s : js_string) : Prop := (length s ≤ 1)%nat.

(** The characters the numeric test lets into a slot: white space, the
    hexadecimal digits (the decimal ones among them), the dot and the [y]
    that ends [Infinity]. *)
Definition slot_character (c : N) : bool :=
  StrWhiteSpaceChar c || HexDigit c || (c =? 46)%N || (c =? 121)%N.

Definition stored_value (s : js_string) : bool :=
  match s with
  | [] => true
  | [c] => slot_character c
  | _ :: _ :: _ => false
  end.

(** *** Sessions *)

Section Session.

Variable length : nat.

(** The mount effect: [focus()] on the first input, when there is one. *)
Definition mount : list effect := focus_ref (initial length) 0.

(** Everything the handlers do over a sequence of events, each handler
    reading the state the one before it left. *)
Fixpoint trace (otp : list js_string) (events : list event) : list effect :=
  match events with
  | [] => []
  | e :: rest =>
      handle length otp e
      ++ trace (next_otp otp (handle length otp e)) rest
  end.

(** The user types the characters [cs] one after the other, the first into
    slot 0 and each next one into the slot after it: every input is empty
    when its character arrives, so its new text is that character. *)
Definition typing (cs : list N) : list event :=
  imap (λ index c, Change index [c]) cs.

(** An event whose text, if it has one, is made of decimal digits. *)
Definition digits_only (e : event) : bool :=
  match e with
  | Change _ value => forallb DecimalDigit value
  | Click _ | KeyDown _ _ => true
  end.

(** The inputs are rendered with [type="text"]: the browser strips LF and
    CR from whatever is typed or pasted into them, so the text a change
    event reports holds neither. *)
Definition newline (c : N) : bool := ((c =? 10) || (c =? 13))%N.

Definition text_input_value (value : js_string) : bool :=
  forallb (λ c, negb (newline c)) value.

Definition from_text_input (e : event) : bool :=
  match e with
  | Change _ value => text_input_value value
  | Click _ | KeyDown _ _ => true
  end.

(** The states reached by events the rendered inputs can deliver. *)
Inductive reachable_by_inputs : list js_string → Prop :=
| by_inputs_mount : reachable_by_inputs (initial length)
| by_inputs_event otp e :
    reachable_by_inputs otp →
    (slot e < List.length otp)%nat →
    from_text_input e = true →
    reachable_by_inputs (next_otp otp (handle length otp e)).

End Session.

(** * Properties *)

Example Number_samples :
  map isNaN_Number
    [[]; js "7"; js "39"; js " "; js "1."; js ".5"; js "-1"; js "1e5";
     js "0x1f"; js "Infinity"; js " 12 "]
  = replicate 11 false
  ∧ map isNaN_Number
      [js "a"; js "+"; js "."; js "1e"; js "0x"; js "1 2"; js "--1";
       js "1a"; js "infinity"; js "+0x1"; js "e5"; js "1.e"; js "1_0"]
    = replicate 13 true.
Proof. split; vm_compute; reflexivity. Qed.

Section JsFacts.

(** A text of one character is a number exactly when the character is a
    digit or white space. *)
Lemma isNaN_Number_single (c : N) :
  isNaN_Number [c] = negb (StrWhiteSpaceChar c || DecimalDigit c).
Proof.
  unfold isNaN_Number, StringNumericLiteral, trim. f_equal. simpl.
  destruct (StrWhiteSpaceChar c) eqn:Hws; [done|]. simpl. rewrite Hws. simpl.
  unfold StrDecimalLiteral, StrUnsignedDecimalLiteral, unsigned.
  rewrite orb_false_r.
  destruct (is_sign c) eqn:Hsign.
  - case_decide; [done|]. simpl. symmetry.
    unfold is_sign, DecimalDigit in *.
    apply orb_true_iff in Hsign as [?%N.eqb_eq|?%N.eqb_eq]; by subst.
  - case_decide as Hinf; [by apply (f_equal length) in Hinf|]. simpl.
    destruct (DecimalDigit c) eqn:Hdigit; simpl; [done|].
    by destruct (c =? 46)%N.
Qed.

Lemma substring_last (value : js_string) :
  substring value (Z.of_nat (length value) - 1) = last_character value.
Proof.
  unfold substring, last_character.
  destruct value as [|c r _] using rev_ind; [done|].
  rewrite last_snoc, length_app. simpl.
  replace (Z.to_nat _) with (length r) by lia.
  by rewrite drop_app_length.
Qed.

Lemma last_character_at_most_one (value : js_string) :
  at_most_one (last_character value).
Proof. unfold at_most_one, last_character. destruct (last value); simpl; lia. Qed.

Lemma last_character_nil (value : js_string) :
  last_character value = [] ↔ value = [].
Proof.
  unfold last_character. split; [|by intros ->].
  destruct value as [|c r _] using rev_ind; [done|].
  by rewrite last_snoc.
Qed.

Lemma truthy_true (s : js_string) : truthy s = true ↔ s ≠ [].
Proof. by destruct s. Qed.

Lemma truthy_false (s : js_string) : truthy s = false ↔ s = [].
Proof. by destruct s. Qed.

Lemma length_join_le (a : list js_string) :
  Forall at_most_one a → (length (join a) ≤ length a)%nat.
Proof.
  unfold join, at_most_one.
  induction 1 as [|s a Hs _ IH]; simpl; [lia|].
  rewrite length_app. lia.
Qed.

(** With at most one code unit per slot, the joined text is as long as the
    array exactly when no slot is empty. *)
Lemma length_join_full (a : list js_string) :
  Forall at_most_one a →
  length (join a) = length a ↔ Forall (λ s, s ≠ []) a.
Proof.
  intros Ha. induction Ha as [|s a Hs Ha IH]; [by split|].
  pose proof (length_join_le a Ha) as Hle.
  unfold join, at_most_one in *. simpl. rewrite length_app, Forall_cons.
  destruct s as [|c [|d s]]; simpl in *; [| |lia].
  - split; [lia|]. by intros [? _].
  - rewrite <- IH. split; [intros; split; [done|lia]|intros [_ ?]; lia].
Qed.

Lemma array_set_in_range (a : list js_string) index v :
  (index < length a)%nat → array_set a index v = <[index:=v]> a.
Proof. intros. unfold array_set. by case_decide. Qed.

(** [findIndex] stops at the first element that satisfies the test. *)
Lemma findIndex_from_first p (a : list js_string) (k : Z) j x :
  a !! j = Some x → p x = true →
  (∀ i y, (i < j)%nat → a !! i = Some y → p y = false) →
  findIndex_from p a k = (k + Z.of_nat j)%Z.
Proof.
  revert k j. induction a as [|y a IH]; intros k j Hj Hx Hmin; [done|].
  simpl. destruct j as [|j]; simpl in Hj.
  - injection Hj as ->. rewrite Hx. lia.
  - rewrite (Hmin 0%nat y) by (done || lia).
    rewrite (IH (k + 1)%Z j); [lia|done..|].
    intros i z Hi Hz. apply (Hmin (S i) z); [lia|done].
Qed.

(** A test that some element satisfies has a first such element. *)
Lemma first_satisfying p (a : list js_string) j x :
  a !! j = Some x → p x = true →
  ∃ m y, (m ≤ j)%nat ∧ a !! m = Some y ∧ p y = true
         ∧ ∀ i z, (i < m)%nat → a !! i = Some z → p z = false.
Proof.
  revert j. induction a as [|y a IH]; intros j Hj Hx; [done|].
  destruct (p y) eqn:Hy.
  - exists 0%nat, y. repeat split; [lia|done..|intros; lia].
  - destruct j as [|j]; simpl in Hj; [congruence|].
    destruct (IH j Hj Hx) as (m & z & Hm & Hz & Hpz & Hmin).
    exists (S m), z. repeat split; [lia|done..|].
    intros [|i] w Hi Hw; simpl in Hw; [congruence|].
    apply (Hmin i w); [lia|done].
Qed.

End JsFacts.

Section EffectFacts.

Lemma next_otp_app otp t1 t2 :
  next_otp otp (t1 ++ t2) = next_otp (next_otp otp t1) t2.
Proof. apply foldl_app. Qed.

Lemma submitted_app t1 t2 : submitted (t1 ++ t2) = submitted t1 ++ submitted t2.
Proof. apply omap_app. Qed.

Lemma focus_calls_app t1 t2 :
  focus_calls (t1 ++ t2) = focus_calls t1 ++ focus_calls t2.
Proof. apply omap_app. Qed.

Lemma next_otp_focus_ref rendered otp j :
  next_otp otp (focus_ref rendered j) = otp.
Proof. unfold focus_ref. by case_decide. Qed.

Lemma submitted_focus_ref rendered j : submitted (focus_ref rendered j) = [].
Proof. unfold focus_ref. by case_decide. Qed.

Lemma focus_calls_focus_ref rendered j :
  (j < length rendered)%nat → focus_calls (focus_ref rendered j) = [j].
Proof. intros. unfold focus_ref. by case_decide. Qed.

Lemma length_focus_calls_focus_ref rendered j :
  (length (focus_calls (focus_ref rendered j)) ≤ 1)%nat.
Proof. unfold focus_ref. case_decide; simpl; lia. Qed.

Lemma next_otp_setSelectionRange_ref rendered otp j s e :
  next_otp otp (setSelectionRange_ref rendered j s e) = otp.
Proof. unfold setSelectionRange_ref. by case_decide. Qed.

Lemma focus_calls_setSelectionRange_ref rendered j s e :
  focus_calls (setSelectionRange_ref rendered j s e) = [].
Proof. unfold setSelectionRange_ref. by case_decide. Qed.

End EffectFacts.

Create Rewrite HintDb effects.
#[local] Hint Rewrite next_otp_app submitted_app focus_calls_app
  next_otp_focus_ref submitted_focus_ref next_otp_setSelectionRange_ref
  focus_calls_setSelectionRange_ref : effects.

Section HandlerFacts.

Context (length : nat).
Implicit Types (otp : list js_string) (index : nat) (value key : js_string).

(** An accepted change stores the last character of the text at its slot. *)
Lemma next_otp_handleChange otp index value :
  isNaN_Number value = false →
  next_otp otp (handleChange length otp index value)
  = array_set otp index (last_character value).
Proof.
  intros Hnum. unfold handleChange. rewrite Hnum, substring_last.
  repeat case_match; autorewrite with effects; done.
Qed.

Lemma submitted_handleChange otp index value :
  isNaN_Number value = false →
  submitted (handleChange length otp index value)
  = let combinedOtp := join (array_set otp index (last_character value)) in
    if decide (List.length combinedOtp = length) then [combinedOtp] else [].
Proof.
  intros Hnum. unfold handleChange. rewrite Hnum, substring_last.
  repeat case_match; autorewrite with effects; done.
Qed.

Lemma focus_calls_handleChange otp index value :
  isNaN_Number value = false →
  focus_calls (handleChange length otp index value)
  = (if truthy value
        && bool_decide (Z.of_nat index < Z.of_nat length - 1)%Z
     then focus_calls (focus_ref otp (index + 1)) else [])
    ++ (if negb (truthy value) && bool_decide (0 < index)%nat
        then focus_calls (focus_ref otp (index - 1)) else []).
Proof.
  intros Hnum. unfold handleChange. rewrite Hnum.
  repeat case_match; autorewrite with effects; done.
Qed.

Lemma handleChange_rejected otp index value :
  isNaN_Number value = true → handleChange length otp index value = [].
Proof. intros Hnan. unfold handleChange. by rewrite Hnan. Qed.

(** One character typed into an empty slot is rejected unless it is a digit
    or white space. *)
Lemma handleChange_keystroke_rejected otp index (c : N) :
  StrWhiteSpaceChar c = false → DecimalDigit c = false →
  handleChange length otp index [c] = [].
Proof.
  intros Hws Hdigit. apply handleChange_rejected.
  by rewrite isNaN_Number_single, Hws, Hdigit.
Qed.

Lemma next_otp_handleClick otp index :
  next_otp otp (handleClick otp index) = otp.
Proof. unfold handleClick. repeat case_match; autorewrite with effects; done. Qed.

Lemma next_otp_handleKeyDown otp index key :
  next_otp otp (handleKeyDown otp index key) = otp.
Proof. unfold handleKeyDown. case_match; autorewrite with effects; done. Qed.

(** Every handler leaves the number of slots as it is and touches no slot
    but the event's own. *)
Lemma next_otp_handle_frame otp e :
  (slot e < List.length otp)%nat →
  ∃ v, next_otp otp (handle length otp e) = <[slot e:=v]> otp
       ∧ (otp !! slot e = Some v ∨ at_most_one v).
Proof.
  intros Hslot.
  assert (∃ s, otp !! slot e = Some s ∧ True) as (s & Hs & _)
    by (destruct (lookup_lt_is_Some_2 otp (slot e) Hslot); eauto).
  destruct e as [index value|index|index key]; simpl in *.
  - destruct (isNaN_Number value) eqn:Hnum.
    + rewrite handleChange_rejected by done. simpl.
      exists s. rewrite list_insert_id by done. auto.
    + rewrite next_otp_handleChange, array_set_in_range by done.
      eauto using last_character_at_most_one.
  - rewrite next_otp_handleClick. exists s. rewrite list_insert_id by done. auto.
  - rewrite next_otp_handleKeyDown. exists s. rewrite list_insert_id by done. auto.
Qed.

(** What every run keeps: the number of slots, and at most one code unit
    in each. *)
Lemma reachable_slots otp :
  reachable length otp → List.length otp = length ∧ Forall at_most_one otp.
Proof.
  induction 1 as [|otp e _ [IHlen IHall] Hslot].
  - unfold initial. split; [apply length_replicate|].
    apply Forall_replicate. unfold at_most_one. simpl. lia.
  - destruct (next_otp_handle_frame otp e Hslot) as (v & -> & Hv).
    split; [by rewrite length_insert|].
    apply Forall_insert; [done|].
    destruct Hv as [Hv|Hv]; [|done].
    by apply (proj1 (Forall_lookup _ _) IHall (slot e)).
Qed.

Lemma reachable_run otp events otp' :
  reachable length otp → run length otp events = Some otp' →
  reachable length otp'.
Proof.
  revert otp. induction events as [|e rest IH]; simpl; intros otp Hotp Hrun.
  - by injection Hrun as <-.
  - case_decide; [|done]. eapply IH; [|done]. by constructor.
Qed.

End HandlerFacts.

(** ** The event handlers *)

Section Handlers.

Context (length : nat).
Implicit Types (otp : list js_string) (index : nat) (value key : js_string).

(** C1.  After an accepted change at a slot the effective value is written
    there, the slots are joined in order, and the completion callback is
    called with the joined text exactly when its length is [length], which
    is exactly when no slot is empty; it is called on every such change,
    also when the sequence was complete before. *)
Theorem change_submits_when_complete otp index value :
  reachable length otp →
  (index < List.length otp)%nat →
  isNaN_Number value = false →
  let newOtp := <[index:=last_character value]> otp in
  let effects := handleChange length otp index value in
  next_otp otp effects = newOtp
  ∧ (List.length (join newOtp) = length ↔ Forall (λ s, s ≠ []) newOtp)
  ∧ (List.length (join newOtp) = length →
     submitted effects = [join newOtp])
  ∧ (List.length (join newOtp) ≠ length → submitted effects = []).
Proof.
  intros Hreach Hindex Hnum newOtp effects. subst newOtp effects.
  destruct (reachable_slots length otp Hreach) as [Hlen Hall].
  rewrite next_otp_handleChange, submitted_handleChange by done.
  rewrite array_set_in_range by done. simpl.
  split; [done|]. split.
  - rewrite <- length_join_full
      by (apply Forall_insert; auto using last_character_at_most_one).
    by rewrite length_insert, Hlen.
  - split; intros; by case_decide.
Qed.

(** C4.  The value an accepted change writes into its slot is the last
    character of the input text, or the empty string for an empty text. *)
Theorem change_writes_last_character otp index value :
  (index < List.length otp)%nat →
  isNaN_Number value = false →
  substring value (Z.of_nat (List.length value) - 1) = last_character value
  ∧ next_otp otp (handleChange length otp index value) !! index
    = Some (last_character value).
Proof.
  intros Hindex Hnum. split; [apply substring_last|].
  rewrite next_otp_handleChange, array_set_in_range by done.
  by apply list_lookup_insert_eq.
Qed.

(** C5.  An accepted change with a non-empty effective value moves the
    focus to the next slot unless its slot is the last one; one with an
    empty effective value moves it to the previous slot unless its slot is
    the first one. *)
Theorem change_focus_shift otp index value :
  reachable length otp →
  (index < length)%nat →
  isNaN_Number value = false →
  let calls := focus_calls (handleChange length otp index value) in
  (last_character value ≠ [] → (index < length - 1)%nat →
   calls = [(index + 1)%nat])
  ∧ (last_character value ≠ [] → index = (length - 1)%nat → calls = [])
  ∧ (last_character value = [] → (0 < index)%nat →
     calls = [(index - 1)%nat])
  ∧ (last_character value = [] → index = 0%nat → calls = []).
Proof.
  intros Hreach Hindex Hnum calls. subst calls.
  destruct (reachable_slots length otp Hreach) as [Hlen _].
  rewrite focus_calls_handleChange by done.
  rewrite !last_character_nil.
  repeat split; intros Hvalue Hpos.
  - apply truthy_true in Hvalue. rewrite Hvalue. simpl.
    rewrite bool_decide_eq_true_2 by lia.
    rewrite focus_calls_focus_ref by lia. done.
  - apply truthy_true in Hvalue. rewrite Hvalue. simpl.
    rewrite bool_decide_eq_false_2 by lia. done.
  - subst value. simpl.
    rewrite bool_decide_eq_true_2 by lia.
    rewrite focus_calls_focus_ref by lia. done.
  - subst value. simpl.
    rewrite bool_decide_eq_false_2 by lia. done.
Qed.

(** The click handler's search: the first empty slot is what [findIndex]
    returns. *)
Lemma findIndex_first_empty otp k :
  otp !! k = Some [] →
  (∀ j, (j < k)%nat → otp !! j ≠ Some []) →
  findIndex (λ val, negb (truthy val)) otp = Z.of_nat k.
Proof.
  intros Hk Hmin. unfold findIndex.
  rewrite (findIndex_from_first _ otp 0 k []); [lia|done..|].
  intros i y Hi Hy. destruct y; [|done]. by destruct (Hmin i Hi).
Qed.

Lemma handleClick_redirect otp index k :
  (0 < index)%nat →
  otp !! (index - 1)%nat = Some [] →
  otp !! k = Some [] →
  (∀ j, (j < k)%nat → otp !! j ≠ Some []) →
  focus_calls (handleClick otp index) = [k].
Proof.
  intros Hpos Hprev Hk Hmin. unfold handleClick.
  autorewrite with effects. simpl.
  rewrite bool_decide_eq_true_2, Hprev by done. simpl.
  rewrite (findIndex_first_empty otp k) by done.
  case_decide; [|lia]. rewrite Nat2Z.id.
  apply focus_calls_focus_ref. by eapply lookup_lt_Some.
Qed.

(** C6.  A click on a slot whose predecessor is empty moves the focus to
    the first empty slot of the sequence; a click on the first slot, or on
    a slot whose predecessor is filled, leaves the focus on the clicked
    slot. *)
Theorem click_redirects_to_first_gap otp index :
  (index < List.length otp)%nat →
  let effects := handleClick otp index in
  ((0 < index)%nat → otp !! (index - 1)%nat = Some [] →
   ∀ k, otp !! k = Some [] → (∀ j, (j < k)%nat → otp !! j ≠ Some []) →
        focus_calls effects = [k] ∧ focus_after index effects = k)
  ∧ (index = 0%nat ∨ (∃ s, otp !! (index - 1)%nat = Some s ∧ s ≠ []) →
     focus_calls effects = [] ∧ focus_after index effects = index).
Proof.
  intros Hindex effects. subst effects. split.
  - intros Hpos Hprev k Hk Hmin. unfold focus_after.
    by rewrite (handleClick_redirect otp index k).
  - intros Hstay. unfold focus_after, handleClick.
    autorewrite with effects. simpl.
    destruct Hstay as [->|(s & Hs & Hne)]; [done|].
    rewrite Hs. simpl. apply truthy_true in Hne. rewrite Hne.
    by rewrite andb_false_r.
Qed.

(** C7.  Backspace on an empty slot that is not the first one moves the
    focus to the previous slot; any other key-down does nothing, and no
    key-down changes the slots. *)
Theorem backspace_steps_back otp index key :
  (index < List.length otp)%nat →
  let effects := handleKeyDown otp index key in
  next_otp otp effects = otp
  ∧ (key = js "Backspace" → otp !! index = Some [] → (0 < index)%nat →
     focus_calls effects = [(index - 1)%nat]
     ∧ focus_after index effects = (index - 1)%nat)
  ∧ (key ≠ js "Backspace" ∨ (∃ s, otp !! index = Some s ∧ s ≠ [])
     ∨ index = 0%nat →
     effects = [] ∧ focus_after index effects = index).
Proof.
  intros Hindex effects. subst effects.
  split; [apply next_otp_handleKeyDown|]. unfold focus_after, handleKeyDown.
  split.
  - intros -> Hempty Hpos. rewrite Hempty. simpl.
    rewrite bool_decide_eq_true_2 by done.
    rewrite focus_calls_focus_ref by lia. done.
  - intros [Hkey|[(s & Hs & Hne)| ->]].
    + by rewrite bool_decide_eq_false_2.
    + rewrite Hs. simpl. apply truthy_true in Hne. rewrite Hne.
      by rewrite andb_false_r.
    + by rewrite andb_false_r.
Qed.

(** C8.  Every handler leaves every slot but the event's own as it was,
    and the sequence has [length] slots before and after it. *)
Theorem handlers_write_one_slot otp e :
  reachable length otp →
  (slot e < List.length otp)%nat →
  let otp' := next_otp otp (handle length otp e) in
  List.length otp = length
  ∧ List.length otp' = length
  ∧ ∀ j, j ≠ slot e → otp' !! j = otp !! j.
Proof.
  intros Hreach Hslot otp'. subst otp'.
  destruct (reachable_slots length otp Hreach) as [Hlen _].
  destruct (next_otp_handle_frame length otp e Hslot) as (v & -> & _).
  rewrite length_insert. repeat split; [done..|].
  intros j Hj. by apply list_lookup_insert_ne.
Qed.

(** C9.  Under the click handler's guard the search cannot fail: the first
    empty slot exists, is the predecessor or a slot before it, and the
    focus is moved there. *)
Theorem click_guard_finds_gap otp index :
  (0 < index)%nat →
  otp !! (index - 1)%nat = Some [] →
  ∃ k, findIndex (λ val, negb (truthy val)) otp = Z.of_nat k
       ∧ findIndex (λ val, negb (truthy val)) otp ≠ (-1)%Z
       ∧ (k ≤ index - 1)%nat
       ∧ otp !! k = Some []
       ∧ focus_calls (handleClick otp index) = [k].
Proof.
  intros Hpos Hprev.
  destruct (first_satisfying (λ val, negb (truthy val)) otp
              (index - 1) [] Hprev eq_refl)
    as (k & y & Hk & Hy & Hempty & Hmin).
  apply negb_true_iff, truthy_false in Hempty. subst y.
  assert (∀ j, (j < k)%nat → otp !! j ≠ Some []) as Hmin'.
  { intros j Hj Hnil. by specialize (Hmin j [] Hj Hnil). }
  exists k. rewrite (findIndex_first_empty otp k) by done.
  repeat split; [lia|done..|].
  by apply handleClick_redirect.
Qed.

(** C10.  The change handler calls [focus()] at most once: its two tests
    are on the raw text being non-empty and being empty, and the effective
    value is empty exactly when the raw text is. *)
Theorem change_moves_focus_at_most_once otp index value :
  (List.length (focus_calls (handleChange length otp index value)) ≤ 1)%nat
  ∧ (substring value (Z.of_nat (List.length value) - 1) = [] ↔ value = []).
Proof.
  split; [|rewrite substring_last; apply last_character_nil].
  destruct (isNaN_Number value) eqn:Hnum.
  - rewrite handleChange_rejected by done. simpl. lia.
  - rewrite focus_calls_handleChange by done.
    destruct (truthy value); simpl; [rewrite app_nil_r|];
      case_match; simpl; auto using length_focus_calls_focus_ref with lia.
Qed.

End Handlers.

(** ** Scenarios with four slots *)

Lemma reachable_1234 : reachable 4 [js "1"; js "2"; js "3"; js "4"].
Proof.
  apply reachable_run with
    (otp := initial 4)
    (events := [Change 0 (js "1"); Change 1 (js "2"); Change 2 (js "3");
                Change 3 (js "4")]);
    [constructor|reflexivity].
Qed.

Lemma change_submits_when_complete_witness :
  let otp := [js "1"; js "2"; js "3"; js "4"] in
  next_otp otp (handleChange 4 otp 2 (js "9"))
  = [js "1"; js "2"; js "9"; js "4"]
  ∧ submitted (handleChange 4 otp 2 (js "9")) = [js "1294"].
Proof.
  intros otp.
  destruct (change_submits_when_complete 4 otp 2 (js "9"))
    as (Hnext & _ & Hfull & _).
  - exact reachable_1234.
  - simpl. lia.
  - reflexivity.
  - split; [exact Hnext|]. apply Hfull. reflexivity.
Defined.

Lemma change_writes_last_character_witness :
  next_otp [js "1"; []; []; []]
    (handleChange 4 [js "1"; []; []; []] 0 (js "17")) !! 0%nat
  = Some (js "7").
Proof.
  apply (change_writes_last_character 4 [js "1"; []; []; []] 0 (js "17")).
  - simpl. lia.
  - reflexivity.
Defined.

Lemma change_focus_shift_witness :
  focus_calls (handleChange 4 (initial 4) 0 (js "5")) = [1%nat].
Proof.
  apply (change_focus_shift 4 (initial 4) 0 (js "5")).
  - apply reachable_mount.
  - lia.
  - reflexivity.
  - discriminate.
  - simpl. lia.
Defined.

Lemma click_redirects_to_first_gap_witness :
  focus_calls (handleClick [js "1"; js "2"; []; js "4"] 3) = [2%nat]
  ∧ focus_after 3 (handleClick [js "1"; js "2"; []; js "4"] 3) = 2%nat.
Proof.
  apply (click_redirects_to_first_gap [js "1"; js "2"; []; js "4"] 3).
  - simpl. lia.
  - lia.
  - reflexivity.
  - reflexivity.
  - intros [|[|j]] Hj; simpl; [discriminate..|lia].
Defined.

Lemma backspace_steps_back_witness :
  focus_calls (handleKeyDown [js "1"; js "2"; []; []] 3 (js "Backspace"))
  = [2%nat].
Proof.
  apply (backspace_steps_back [js "1"; js "2"; []; []] 3 (js "Backspace")).
  - simpl. lia.
  - reflexivity.
  - reflexivity.
  - lia.
Defined.

Lemma handlers_write_one_slot_witness :
  List.length (next_otp (initial 4) (handle 4 (initial 4) (Change 1 (js "5"))))
  = 4%nat.
Proof.
  apply (handlers_write_one_slot 4 (initial 4) (Change 1 (js "5"))).
  - apply reachable_mount.
  - simpl. lia.
Defined.

Lemma click_guard_finds_gap_witness :
  ∃ k, findIndex (λ val, negb (truthy val)) [js "1"; js "2"; []; js "4"]
       = Z.of_nat k
       ∧ findIndex (λ val, negb (truthy val)) [js "1"; js "2"; []; js "4"]
         ≠ (-1)%Z
       ∧ (k ≤ 3 - 1)%nat
       ∧ [js "1"; js "2"; []; js "4"] !! k = Some []
       ∧ focus_calls (handleClick [js "1"; js "2"; []; js "4"] 3) = [k].
Proof.
  apply (click_guard_finds_gap [js "1"; js "2"; []; js "4"] 3).
  - lia.
  - reflexivity.
Defined.

(** C2.  A change whose text is not numeric is to be rejected, with the
    slots left as they are and the callback not called, and the change
    handler's [isNaN(Number(value))] test is there for that; but [Number]
    reads more than digits.  With the slots 1, 2, 3, 4, a dot typed after
    the 4 makes the text of the last input [4.], which is not made of
    digits and which [Number] turns into 4: the change is accepted, the dot
    is stored and the callback is called with [123.]. *)
Theorem dot_after_digit_is_accepted :
  let otp := [js "1"; js "2"; js "3"; js "4"] in
  reachable 4 otp
  ∧ forallb DecimalDigit (js "4.") = false
  ∧ isNaN_Number (js "4.") = false
  ∧ next_otp otp (handleChange 4 otp 3 (js "4."))
    = [js "1"; js "2"; js "3"; js "."]
  ∧ submitted (handleChange 4 otp 3 (js "4.")) = [js "123."]
  ∧ focus_calls (handleChange 4 otp 3 (js "4.")) = [].
Proof.
  split; [exact reachable_1234|]. repeat split; reflexivity.
Qed.

(** C3.  The data model wants every slot empty or one of the digits 0 to 9,
    and the change handler's [isNaN(Number(value))] test is there to keep
    it so; but [Number] of a lone space is 0, so a space typed into the
    first slot of the freshly mounted component is accepted and stored. *)
Theorem space_is_stored_in_a_slot :
  isNaN_Number (js " ") = false
  ∧ next_otp (initial 4) (handleChange 4 (initial 4) 0 (js " "))
    = [js " "; []; []; []]
  ∧ reachable 4 [js " "; []; []; []]
  ∧ forallb digit_or_empty [js " "; []; []; []] = false.
Proof.
  repeat split; try reflexivity.
  apply reachable_run with (otp := initial 4) (events := [Change 0 (js " ")]);
    [constructor|reflexivity].
Qed.

(** ** What the numeric test admits *)

Section NumericTexts.

Implicit Types (s t : js_string) (c : N) (p : N → bool).

Lemma last_suffix s t c :
  t `suffix_of` s → last t = Some c → last s = Some c.
Proof. intros [k ->] Hc. by apply last_app_Some; left. Qed.

Lemma skip_suffix p s : skip p s `suffix_of` s.
Proof.
  induction s as [|c s IH]; simpl; [done|].
  destruct (p c); [by apply suffix_cons_r|done].
Qed.

Lemma skip_nil p s : skip p s = [] → forallb p s = true.
Proof.
  induction s as [|c s IH]; simpl; [done|].
  destruct (p c); [done|discriminate].
Qed.

(** [skip] stops before a last character that is not of the class. *)
Lemma skip_keeps_last p s c :
  last s = Some c → p c = false → last (skip p s) = Some c.
Proof.
  intros Hlast Hc. induction s as [|d s IH]; simpl; [done|].
  destruct (p d) eqn:Hd; [|done].
  destruct s as [|e s]; [simpl in Hlast; congruence|].
  apply IH. by rewrite last_cons_cons in Hlast.
Qed.

Lemma unsigned_suffix s : unsigned s `suffix_of` s.
Proof.
  destruct s as [|c s]; simpl; [done|].
  destruct (is_sign c); [by apply suffix_cons_r|done].
Qed.

Lemma forallb_last p s c : forallb p s = true → last s = Some c → p c = true.
Proof.
  intros Hall Hlast. apply last_Some in Hlast as [k ->].
  rewrite forallb_app in Hall. simpl in Hall.
  by destruct (forallb p k), (p c).
Qed.

Lemma digits_last p s : digits p s = true → ∃ c, last s = Some c ∧ p c = true.
Proof.
  unfold digits. intros [Hs Hall]%andb_true_iff.
  destruct (last s) as [c|] eqn:Hlast.
  - eauto using forallb_last.
  - apply last_None in Hlast. by subst.
Qed.

Lemma trim_keeps_last s c :
  last s = Some c → StrWhiteSpaceChar c = false → last (trim s) = Some c.
Proof.
  intros Hlast Hc. unfold trim.
  pose proof (skip_keeps_last StrWhiteSpaceChar s c Hlast Hc) as Hskip.
  apply last_Some in Hskip as [k ->].
  rewrite rev_app_distr. simpl. rewrite Hc.
  change (c :: rev k) with (rev [c] ++ rev k).
  by rewrite <- rev_app_distr, rev_involutive, last_snoc.
Qed.

Lemma DecimalDigit_HexDigit c : DecimalDigit c = true → HexDigit c = true.
Proof. unfold HexDigit. by intros ->. Qed.

Lemma BinaryDigit_HexDigit c : BinaryDigit c = true → HexDigit c = true.
Proof.
  unfold BinaryDigit. intros [->%N.eqb_eq| ->%N.eqb_eq]%orb_true_iff; done.
Qed.

Lemma OctalDigit_HexDigit c : OctalDigit c = true → HexDigit c = true.
Proof.
  unfold OctalDigit. intros [H1%N.leb_le H2%N.leb_le]%andb_true_iff.
  apply DecimalDigit_HexDigit. unfold DecimalDigit.
  apply andb_true_iff. split; apply N.leb_le; lia.
Qed.

Lemma ExponentPart_opt_last s c :
  ExponentPart_opt s = true → last s = Some c → DecimalDigit c = true.
Proof.
  destruct s as [|e r]; simpl; [done|].
  intros [_ (d & Hd & Hdigit)%digits_last]%andb_true_iff Hlast.
  pose proof (last_suffix (e :: r) (unsigned r) d) as Hsuffix.
  rewrite Hsuffix in Hlast
    by (done || apply suffix_cons_r, unsigned_suffix).
  congruence.
Qed.

Lemma StrUnsignedDecimalLiteral_last s c :
  StrUnsignedDecimalLiteral s = true → last s = Some c →
  DecimalDigit c = true ∨ c = 46%N ∨ c = 121%N.
Proof.
  unfold StrUnsignedDecimalLiteral. intros Hlit Hlast.
  case_decide as Hinf.
  { subst s. vm_compute in Hlast. injection Hlast as <-. auto. }
  pose proof (skip_suffix DecimalDigit s) as Hsuf.
  destruct (skip DecimalDigit s) as [|d r] eqn:Hskip.
  { left. eauto using forallb_last, skip_nil. }
  destruct (d =? 46)%N eqn:Hdot.
  - apply N.eqb_eq in Hdot. subst d.
    apply andb_true_iff in Hlit as [_ Hexp].
    destruct r as [|d r].
    { rewrite (last_suffix s [46%N] 46%N) in Hlast by done.
      injection Hlast as <-. auto. }
    pose proof (skip_suffix DecimalDigit (d :: r)) as Hsuf'.
    destruct (last (skip DecimalDigit (d :: r))) as [x|] eqn:Hx.
    + left. rewrite (last_suffix s (skip DecimalDigit (d :: r)) x) in Hlast.
      * injection Hlast as <-. eauto using ExponentPart_opt_last.
      * etrans; [done|]. etrans; [by apply suffix_cons_r|done].
      * done.
    + apply last_None, skip_nil in Hx.
      destruct (last (d :: r)) as [x|] eqn:Hdr; [|by apply last_None in Hdr].
      left. rewrite (last_suffix s (d :: r) x) in Hlast.
      * injection Hlast as <-. eauto using forallb_last.
      * etrans; [by apply suffix_cons_r|done].
      * done.
  - apply andb_true_iff in Hlit as [_ Hexp].
    destruct (last (d :: r)) as [x|] eqn:Hdr; [|by apply last_None in Hdr].
    left. rewrite (last_suffix s (d :: r) x) in Hlast by done.
    injection Hlast as <-. eauto using ExponentPart_opt_last.
Qed.

Lemma StrUnsignedDecimalLiteral_nil : StrUnsignedDecimalLiteral [] = false.
Proof. reflexivity. Qed.

Lemma StrDecimalLiteral_last s c :
  StrDecimalLiteral s = true → last s = Some c →
  DecimalDigit c = true ∨ c = 46%N ∨ c = 121%N.
Proof.
  unfold StrDecimalLiteral. intros Hlit Hlast.
  destruct (last (unsigned s)) as [x|] eqn:Hx.
  - rewrite (last_suffix s (unsigned s) x) in Hlast
      by (done || apply unsigned_suffix).
    injection Hlast as <-. eauto using StrUnsignedDecimalLiteral_last.
  - apply last_None in Hx. rewrite Hx in Hlit. done.
Qed.

Lemma NonDecimalIntegerLiteral_last s c :
  NonDecimalIntegerLiteral s = true → last s = Some c → HexDigit c = true.
Proof.
  destruct s as [|z [|b r]]; unfold NonDecimalIntegerLiteral; [done..|].
  intros [_ Hbase]%andb_true_iff Hlast.
  assert (∃ p, digits p r = true ∧ ∀ x, p x = true → HexDigit x = true)
    as (p & (x & Hx & Hpx)%digits_last & Hp).
  { apply orb_true_iff in Hbase as [Hbase|Hbase];
      [apply orb_true_iff in Hbase as [Hbase|Hbase]|];
      apply andb_true_iff in Hbase as [_ Hdigits];
      eauto using BinaryDigit_HexDigit, OctalDigit_HexDigit. }
  rewrite (last_suffix (z :: b :: r) r x) in Hlast.
  - injection Hlast as <-. auto.
  - by do 2 apply suffix_cons_r.
  - done.
Qed.

Lemma accepted_text_last value c :
  isNaN_Number value = false → last value = Some c →
  slot_character c = true.
Proof.
  unfold isNaN_Number, StringNumericLiteral, slot_character.
  intros Hnum%negb_false_iff Hlast.
  destruct (StrWhiteSpaceChar c) eqn:Hws; [done|]. simpl.
  pose proof (trim_keeps_last value c Hlast Hws) as Htrim.
  destruct (trim value) as [|d t] eqn:Ht; [done|].
  cbn [truthy negb orb] in Hnum.
  apply orb_true_iff in Hnum as [Hdec|Hnon].
  - destruct (StrDecimalLiteral_last _ c Hdec Htrim) as [Hd|[->| ->]];
      [|done..].
    by rewrite (DecimalDigit_HexDigit c).
  - by rewrite (NonDecimalIntegerLiteral_last _ c Hnon Htrim).
Qed.

Lemma HexDigit_not_white c :
  HexDigit c = true → StrWhiteSpaceChar c = false.
Proof.
  unfold HexDigit, DecimalDigit, StrWhiteSpaceChar. intros Hhex.
  repeat (apply orb_true_iff in Hhex as [Hhex|Hhex]);
    apply andb_true_iff in Hhex as [?%N.leb_le ?%N.leb_le];
    repeat (apply orb_false_iff; split);
    try (apply N.eqb_neq; lia);
    apply andb_false_iff; left; apply N.leb_gt; lia.
Qed.

(** [0x] and one hexadecimal digit is a number. *)
Lemma isNaN_Number_hex c : HexDigit c = true → isNaN_Number [48; 120; c]%N = false.
Proof.
  intros Hhex. pose proof (HexDigit_not_white c Hhex) as Hws.
  unfold isNaN_Number, StringNumericLiteral, trim. apply negb_false_iff.
  change (skip StrWhiteSpaceChar [48; 120; c]%N) with [48; 120; c]%N.
  change (rev [48; 120; c]%N) with [c; 120; 48]%N.
  simpl skip. rewrite Hws.
  change (rev [c; 120; 48]%N) with [48; 120; c]%N.
  unfold NonDecimalIntegerLiteral, digits. simpl. by rewrite Hhex.
Qed.

Lemma slot_character_text c :
  slot_character c = true →
  ∃ value, isNaN_Number value = false ∧ last value = Some c.
Proof.
  unfold slot_character. intros Hc.
  destruct (StrWhiteSpaceChar c) eqn:Hws.
  { exists [c]. by rewrite isNaN_Number_single, Hws. }
  destruct (HexDigit c) eqn:Hhex.
  { exists [48; 120; c]%N. split; [by apply isNaN_Number_hex|done]. }
  simpl in Hc. apply orb_true_iff in Hc as [->%N.eqb_eq| ->%N.eqb_eq].
  - by exists (js "1.").
  - by exists (js "Infinity").
Qed.

Lemma last_character_Some value c :
  last_character value = [c] ↔ last value = Some c.
Proof.
  unfold last_character.
  destruct (last value); split; intros Heq; by simplify_eq.
Qed.

Lemma stored_value_last_character value :
  isNaN_Number value = false → stored_value (last_character value) = true.
Proof.
  intros Hnum. unfold last_character.
  destruct (last value) as [c|] eqn:Hlast; [|done].
  simpl. eauto using accepted_text_last.
Qed.

End NumericTexts.

(** ** What a change can store *)

Section StoredValues.

Context (length : nat).
Implicit Types (otp : list js_string) (index : nat) (value : js_string).

(** X1.  A change whose text is a single character is accepted exactly when the
    character is white space or a decimal digit, and then stores it. *)
Theorem single_character_change otp index (c : N) :
  (handleChange length otp index [c] = []
   ↔ StrWhiteSpaceChar c || DecimalDigit c = false)
  ∧ next_otp otp (handleChange length otp index [c])
    = if StrWhiteSpaceChar c || DecimalDigit c
      then array_set otp index [c] else otp.
Proof.
  pose proof (isNaN_Number_single c) as Hsingle.
  destruct (StrWhiteSpaceChar c || DecimalDigit c); simpl in Hsingle.
  - rewrite next_otp_handleChange by done. split; [|done].
    unfold handleChange. rewrite Hsingle. simpl. split; discriminate.
  - by rewrite handleChange_rejected.
Qed.

(** X2.  The characters an accepted change can leave in a slot are exactly the
    white space characters, the hexadecimal digits, the dot and [y]. *)
Theorem storable_characters otp index (c : N) :
  (index < List.length otp)%nat →
  slot_character c = true
  ↔ ∃ value,
      isNaN_Number value = false
      ∧ next_otp otp (handleChange length otp index value) !! index
        = Some [c].
Proof.
  intros Hindex. split.
  - intros (value & Hnum & Hlast)%slot_character_text.
    exists value. split; [done|].
    rewrite next_otp_handleChange, array_set_in_range by done.
    rewrite list_lookup_insert_eq by done.
    f_equal. by apply last_character_Some.
  - intros (value & Hnum & Hslot).
    rewrite next_otp_handleChange, array_set_in_range in Hslot by done.
    rewrite list_lookup_insert_eq in Hslot by done.
    injection Hslot as Hlast%last_character_Some.
    eauto using accepted_text_last.
Qed.

(** X3.  Every state of the component has [length] slots, and each of
    them is empty or holds one storable character. *)
Theorem reachable_stored_values otp :
  reachable length otp →
  List.length otp = length ∧ Forall (λ s, stored_value s = true) otp.
Proof.
  induction 1 as [|otp e _ [IHlen IHall] Hslot].
  { unfold initial. split; [apply length_replicate|].
    by apply Forall_replicate. }
  destruct e as [index value|index|index key]; simpl in *.
  - destruct (isNaN_Number value) eqn:Hnum.
    { by rewrite handleChange_rejected. }
    rewrite next_otp_handleChange, array_set_in_range by done.
    split; [by rewrite length_insert|].
    apply Forall_insert; [done|]. by apply stored_value_last_character.
  - by rewrite next_otp_handleClick.
  - by rewrite next_otp_handleKeyDown.
Qed.

End StoredValues.

Lemma reachable_stored_values_witness :
  Forall (λ s, stored_value s = true) [js "1"; js "2"; js "3"; js "4"].
Proof.
  apply (reachable_stored_values 4 [js "1"; js "2"; js "3"; js "4"]).
  exact reachable_1234.
Defined.

Lemma storable_characters_witness :
  ∃ value,
    isNaN_Number value = false
    ∧ next_otp [[]; []] (handleChange 2 [[]; []] 1 value) !! 1%nat
      = Some (js ".").
Proof.
  apply (storable_characters 2 [[]; []] 1 46%N).
  - simpl. lia.
  - reflexivity.
Defined.

(** ** Texts of digits *)

Section DigitTexts.

Context (length : nat).
Implicit Types (otp : list js_string) (index : nat) (value : js_string).

Lemma forallb_skip p (s : js_string) : forallb p s = true → skip p s = [].
Proof.
  induction s as [|c s IH]; simpl; [done|].
  intros [-> ?]%andb_true_iff. auto.
Qed.

(** A text with no white space at either end is its own trimmed text. *)
Lemma trim_id (c d : N) (r k : js_string) :
  StrWhiteSpaceChar c = false → StrWhiteSpaceChar d = false →
  c :: r = k ++ [d] → trim (c :: r) = c :: r.
Proof.
  intros Hc Hd Heq. unfold trim. simpl. rewrite Hc, Heq.
  rewrite rev_app_distr. simpl. rewrite Hd.
  change (d :: rev k) with (rev [d] ++ rev k).
  by rewrite <- rev_app_distr, rev_involutive.
Qed.

Lemma isNaN_Number_digits value :
  forallb DecimalDigit value = true → isNaN_Number value = false.
Proof.
  intros Hall. destruct value as [|c r]; [done|].
  destruct (last (c :: r)) as [d|] eqn:Hlast; [|by apply last_None in Hlast].
  pose proof (forallb_last _ _ _ Hall Hlast) as Hd.
  apply last_Some in Hlast as [k Hk].
  assert (DecimalDigit c = true) as Hc
    by (simpl in Hall; by apply andb_true_iff in Hall as [? _]).
  unfold isNaN_Number, StringNumericLiteral. apply negb_false_iff.
  rewrite (trim_id c d r k)
    by eauto using HexDigit_not_white, DecimalDigit_HexDigit.
  cbn [truthy negb orb]. apply orb_true_iff. left.
  unfold StrDecimalLiteral, unsigned.
  replace (is_sign c) with false.
  2:{ symmetry. unfold is_sign, DecimalDigit in *.
      apply andb_true_iff in Hc as [?%N.leb_le ?%N.leb_le].
      apply orb_false_iff. split; apply N.eqb_neq; lia. }
  unfold StrUnsignedDecimalLiteral. case_decide; [done|].
  rewrite forallb_skip by done. done.
Qed.

Lemma digit_or_empty_last_character value :
  forallb DecimalDigit value = true →
  digit_or_empty (last_character value) = true.
Proof.
  intros Hall. unfold last_character.
  destruct (last value) as [c|] eqn:Hlast; [|done].
  simpl. eauto using forallb_last.
Qed.

(** X4.  A text of decimal digits, however long, is accepted and leaves its
    last digit in the slot. *)
Theorem digit_text_accepted otp index value :
  (index < List.length otp)%nat →
  forallb DecimalDigit value = true →
  isNaN_Number value = false
  ∧ next_otp otp (handleChange length otp index value)
    = <[index:=last_character value]> otp
  ∧ digit_or_empty (last_character value) = true.
Proof.
  intros Hindex Hall.
  pose proof (isNaN_Number_digits value Hall) as Hnum.
  rewrite next_otp_handleChange, array_set_in_range by done.
  auto using digit_or_empty_last_character.
Qed.

Lemma digits_only_step otp e :
  Forall (λ s, digit_or_empty s = true) otp →
  digits_only e = true →
  (slot e < List.length otp)%nat →
  Forall (λ s, digit_or_empty s = true) (next_otp otp (handle length otp e)).
Proof.
  intros Hotp He Hslot.
  destruct e as [index value|index|index key]; simpl in *.
  - rewrite next_otp_handleChange, array_set_in_range
      by auto using isNaN_Number_digits.
    apply Forall_insert; auto using digit_or_empty_last_character.
  - by rewrite next_otp_handleClick.
  - by rewrite next_otp_handleKeyDown.
Qed.

Lemma digits_only_run otp events otp' :
  Forall (λ s, digit_or_empty s = true) otp →
  Forall (λ e, digits_only e = true) events →
  run length otp events = Some otp' →
  Forall (λ s, digit_or_empty s = true) otp'.
Proof.
  intros Hotp Hevents. revert otp Hotp.
  induction Hevents as [|e events He _ IH]; simpl; intros otp Hotp Hrun.
  - by injection Hrun as <-.
  - case_decide; [|done]. eauto using digits_only_step.
Qed.

(** X5.  As long as every text the inputs report is made of decimal digits,
    every slot is empty or holds one decimal digit. *)
Theorem digit_runs_keep_digits events otp :
  Forall (λ e, digits_only e = true) events →
  run length (initial length) events = Some otp →
  Forall (λ s, digit_or_empty s = true) otp.
Proof.
  apply digits_only_run. unfold initial. by apply Forall_replicate.
Qed.

End DigitTexts.

Lemma digit_text_accepted_witness :
  next_otp [js "1"; []] (handleChange 2 [js "1"; []] 0 (js "1234"))
  = [js "4"; []].
Proof.
  apply (digit_text_accepted 2 [js "1"; []] 0 (js "1234")).
  - simpl. lia.
  - reflexivity.
Defined.

Lemma digit_runs_keep_digits_witness :
  Forall (λ s, digit_or_empty s = true) [js "2"; js "7"].
Proof.
  apply (digit_runs_keep_digits 2
           [Change 0 (js "12"); Click 1; Change 1 (js "7")]).
  - repeat constructor.
  - reflexivity.
Defined.

(** ** Typing a code *)

Section Typing.

Context (length : nat).
Implicit Types (otp : list js_string) (cs : list N).

Lemma trace_app otp events1 events2 :
  trace length otp (events1 ++ events2)
  = trace length otp events1
    ++ trace length (next_otp otp (trace length otp events1)) events2.
Proof.
  revert otp. induction events1 as [|e events1 IH]; intros otp; simpl; [done|].
  by rewrite IH, next_otp_app, app_assoc.
Qed.

Lemma typing_snoc cs c :
  typing (cs ++ [c]) = typing cs ++ [Change (List.length cs) [c]].
Proof. unfold typing. rewrite imap_app. simpl. by rewrite Nat.add_0_r. Qed.

Lemma join_typed cs n : join (((λ c, [c]) <$> cs) ++ replicate n []) = cs.
Proof.
  unfold join. rewrite concat_app.
  replace (concat (replicate n ([] : js_string))) with ([] : js_string)
    by (induction n; simpl; auto).
  rewrite app_nil_r. induction cs as [|c cs IH]; simpl; [done|]. by f_equal.
Qed.

(** The state, the callback calls and the focus calls after the first
    characters of a code have been typed. *)
Lemma typing_trace cs :
  forallb DecimalDigit cs = true →
  (List.length cs ≤ length)%nat →
  let effects := trace length (initial length) (typing cs) in
  next_otp (initial length) effects
  = ((λ c, [c]) <$> cs) ++ replicate (length - List.length cs) []
  ∧ submitted effects
    = (if decide (0 < List.length cs ∧ List.length cs = length)%nat
       then [cs] else [])
  ∧ focus_calls effects = seq 1 (List.length cs `min` (length - 1)).
Proof.
  induction cs as [|c cs IH] using rev_ind; intros Hall Hlen effects;
    subst effects.
  { simpl. rewrite Nat.sub_0_r. by repeat split. }
  rewrite forallb_app in Hall. apply andb_true_iff in Hall as [Hcs Hc].
  simpl in Hc. rewrite andb_true_r in Hc.
  rewrite length_app in *. simpl in Hlen.
  destruct (IH Hcs ltac:(lia)) as (IHnext & IHsub & IHfocus). clear IH.
  assert (isNaN_Number [c] = false) as Hnum
    by (by rewrite isNaN_Number_single, Hc, orb_true_r).
  rewrite typing_snoc, trace_app. simpl trace. rewrite app_nil_r.
  rewrite next_otp_app, submitted_app, focus_calls_app.
  rewrite IHnext, IHsub, IHfocus.
  set (k := List.length cs) in *.
  set (otp := ((λ c, [c]) <$> cs) ++ replicate (length - k) []).
  assert (List.length otp = length) as Hotp.
  { subst otp. rewrite length_app, length_fmap, length_replicate. lia. }
  assert (array_set otp k (last_character [c])
          = ((λ c, [c]) <$> cs ++ [c]) ++ replicate (length - (k + 1)) [])
    as Hnew.
  { rewrite array_set_in_range by lia. subst otp.
    rewrite insert_app_r_alt by (rewrite length_fmap; lia).
    rewrite length_fmap. fold k. rewrite Nat.sub_diag.
    replace (length - k)%nat with (S (length - (k + 1))) by lia.
    rewrite fmap_app, <- app_assoc. done. }
  rewrite next_otp_handleChange, submitted_handleChange by done.
  rewrite focus_calls_handleChange by done.
  rewrite Hnew, join_typed. simpl.
  repeat split.
  - rewrite length_app. simpl. fold k.
    destruct (decide (0 < k ∧ k = length)%nat); [lia|].
    repeat case_decide; try done; lia.
  - rewrite app_nil_r. case_bool_decide.
    + rewrite focus_calls_focus_ref by lia.
      replace ((k + 1) `min` (length - 1))%nat with (S k) by lia.
      replace (k `min` (length - 1))%nat with k by lia.
      by rewrite seq_S, Nat.add_1_r.
    + rewrite app_nil_r. f_equal. lia.
Qed.

(** X6.  Typing as many digits as there are slots, from the mount on, fills the
    slots with them in order, calls the completion callback exactly once,
    with the digits, and takes the focus through the slots from the first
    to the last. *)
Theorem typing_session cs :
  forallb DecimalDigit cs = true →
  (0 < length)%nat →
  List.length cs = length →
  let effects := mount length ++ trace length (initial length) (typing cs) in
  next_otp (initial length) effects = (λ c, [c]) <$> cs
  ∧ submitted effects = [cs]
  ∧ focus_calls effects = seq 0 length.
Proof.
  intros Hall Hpos Hlen effects. subst effects.
  destruct (typing_trace cs Hall ltac:(lia)) as (Hnext & Hsub & Hfocus).
  unfold mount. autorewrite with effects.
  rewrite Hnext, Hsub, Hfocus, Hlen, Nat.sub_diag, app_nil_r.
  rewrite focus_calls_focus_ref
    by (unfold initial; rewrite length_replicate; lia).
  clear Hnext Hsub Hfocus. repeat split.
  - case_decide; [done|lia].
  - replace (length `min` (length - 1))%nat with (length - 1)%nat by lia.
    destruct length; [lia|]. simpl. by rewrite Nat.sub_0_r.
Qed.

(** X7.  Typing fewer digits than there are slots never calls the completion
    callback, and leaves the focus on the first slot still empty. *)
Theorem typing_incomplete cs :
  forallb DecimalDigit cs = true →
  (List.length cs < length)%nat →
  let effects := mount length ++ trace length (initial length) (typing cs) in
  next_otp (initial length) effects
  = ((λ c, [c]) <$> cs) ++ replicate (length - List.length cs) []
  ∧ submitted effects = []
  ∧ focus_calls effects = seq 0 (S (List.length cs))
  ∧ focus_after 0 effects = List.length cs.
Proof.
  intros Hall Hlen effects. subst effects.
  destruct (typing_trace cs Hall ltac:(lia)) as (Hnext & Hsub & Hfocus).
  assert (focus_calls
            (mount length ++ trace length (initial length) (typing cs))
          = seq 0 (S (List.length cs))) as Hcalls.
  { unfold mount. autorewrite with effects. rewrite Hfocus.
    rewrite focus_calls_focus_ref
      by (unfold initial; rewrite length_replicate; lia).
    by replace (List.length cs `min` (length - 1))%nat
      with (List.length cs) by lia. }
  unfold focus_after. rewrite Hcalls.
  unfold mount. autorewrite with effects. rewrite Hnext, Hsub.
  clear Hnext Hsub Hfocus Hcalls.
  repeat split; [by case_decide; [lia|]|].
  rewrite seq_S. simpl. by rewrite last_last.
Qed.

End Typing.

Lemma typing_session_witness :
  submitted (mount 4 ++ trace 4 (initial 4) (typing (js "1234")))
  = [js "1234"].
Proof.
  apply (typing_session 4 (js "1234")).
  - reflexivity.
  - lia.
  - reflexivity.
Defined.

Lemma typing_incomplete_witness :
  submitted (mount 4 ++ trace 4 (initial 4) (typing (js "12"))) = []
  ∧ focus_after 0 (mount 4 ++ trace 4 (initial 4) (typing (js "12")))
    = 2%nat.
Proof.
  destruct (typing_incomplete 4 (js "12")) as (_ & Hsub & _ & Hfocus).
  - reflexivity.
  - simpl. lia.
  - split; [exact Hsub|exact Hfocus].
Defined.

(** ** The completion callback and the slots *)

Section Callback.

Context (length : nat).
Implicit Types (otp : list js_string) (index : nat) (value key : js_string).

Lemma fmap_singleton_join (a : list js_string) :
  Forall at_most_one a → Forall (λ s, s ≠ []) a →
  (λ c, [c]) <$> join a = a.
Proof.
  unfold join, at_most_one. intros Hone Hfull.
  induction a as [|s a IH]; [done|].
  apply Forall_cons in Hone as [Hs Hone]. apply Forall_cons in Hfull as [Hne Hfull].
  destruct s as [|c [|d s]]; simpl in *; [done| |lia].
  f_equal. auto.
Qed.

(** X8.  Clearing a slot never calls the completion callback. *)
Theorem deletion_never_submits otp index :
  reachable length otp →
  (index < List.length otp)%nat →
  next_otp otp (handleChange length otp index []) = <[index:=[]]> otp
  ∧ submitted (handleChange length otp index []) = [].
Proof.
  intros Hreach Hindex.
  destruct (reachable_slots length otp Hreach) as [Hlen Hone].
  rewrite next_otp_handleChange, submitted_handleChange by done.
  rewrite array_set_in_range by done.
  change (last_character []) with ([] : js_string). simpl.
  split; [done|]. case_decide as Hfull; [|done].
  rewrite <- Hlen, <- (length_insert otp index []) in Hfull.
  apply length_join_full in Hfull;
    [|apply Forall_insert; [done|unfold at_most_one; simpl; lia]].
  by destruct (proj1 (Forall_lookup _ _) Hfull index []
                 (list_lookup_insert_eq otp index [] Hindex)).
Qed.

(** X9.  When a change calls the completion callback it calls it once, with a
    text of [length] code units, and slot [i] of the new state holds
    exactly the [i]-th of them. *)
Theorem submitted_text_is_slots otp index value s :
  reachable length otp →
  (index < List.length otp)%nat →
  s ∈ submitted (handleChange length otp index value) →
  submitted (handleChange length otp index value) = [s]
  ∧ List.length s = length
  ∧ next_otp otp (handleChange length otp index value) = (λ c, [c]) <$> s.
Proof.
  intros Hreach Hindex Hs.
  destruct (reachable_slots length otp Hreach) as [Hlen Hone].
  destruct (isNaN_Number value) eqn:Hnum.
  { rewrite handleChange_rejected in Hs by done. by apply elem_of_nil in Hs. }
  rewrite next_otp_handleChange by done.
  rewrite submitted_handleChange in * by done.
  rewrite array_set_in_range in * by done. simpl in *.
  case_decide as Hfull; [|by apply elem_of_nil in Hs].
  apply list_elem_of_singleton in Hs. subst s. repeat split; [done|].
  assert (Forall at_most_one (<[index:=last_character value]> otp)) as Hone'
    by (apply Forall_insert; auto using last_character_at_most_one).
  rewrite fmap_singleton_join; [done..|].
  apply length_join_full; [done|]. by rewrite length_insert, Hlen.
Qed.


End Callback.

Lemma deletion_never_submits_witness :
  submitted (handleChange 4 [js "1"; js "2"; js "3"; js "4"] 3 []) = [].
Proof.
  apply (deletion_never_submits 4 [js "1"; js "2"; js "3"; js "4"] 3).
  - exact reachable_1234.
  - simpl. lia.
Defined.

Lemma submitted_text_is_slots_witness :
  next_otp [js "1"; js "2"; js "3"; []]
    (handleChange 4 [js "1"; js "2"; js "3"; []] 3 (js "7"))
  = (λ c, [c]) <$> js "1237".
Proof.
  apply (submitted_text_is_slots 4 [js "1"; js "2"; js "3"; []] 3 (js "7")
           (js "1237")).
  - apply reachable_run with
      (otp := initial 4)
      (events := [Change 0 (js "1"); Change 1 (js "2"); Change 2 (js "3")]);
      [constructor|reflexivity].
  - simpl. lia.
  - vm_compute. apply list_elem_of_here.
Defined.

(** ** Changes one after the other *)

Section Composition.

Context (length : nat).
Implicit Types (otp : list js_string) (index : nat) (value : js_string).

(** X11.  Clearing a slot right after typing into it, when it was empty, gives
    back the state before the typing. *)
Theorem delete_undoes_typing otp index value :
  otp !! index = Some [] →
  isNaN_Number value = false →
  let typed := next_otp otp (handleChange length otp index value) in
  next_otp typed (handleChange length typed index []) = otp.
Proof.
  intros Hempty Hnum typed. subst typed.
  pose proof (lookup_lt_Some _ _ _ Hempty) as Hindex.
  rewrite !next_otp_handleChange by done.
  rewrite (array_set_in_range otp) by done.
  rewrite array_set_in_range by (by rewrite length_insert).
  rewrite list_insert_insert_eq. by apply list_insert_id.
Qed.

(** X12.  Of two accepted changes at one slot only the second shows in the
    state, and two accepted changes at different slots give the same state
    in either order. *)
Theorem changes_compose otp i j v1 v2 :
  (i < List.length otp)%nat →
  (j < List.length otp)%nat →
  isNaN_Number v1 = false →
  isNaN_Number v2 = false →
  let change otp index value :=
    next_otp otp (handleChange length otp index value) in
  (i = j → change (change otp i v1) j v2 = change otp j v2)
  ∧ (i ≠ j →
     change (change otp i v1) j v2 = change (change otp j v2) i v1).
Proof.
  intros Hi Hj Hv1 Hv2 change. subst change. simpl.
  rewrite !next_otp_handleChange by done.
  rewrite !(array_set_in_range otp) by done.
  rewrite !array_set_in_range by (by rewrite length_insert).
  split.
  - intros ->. apply list_insert_insert_eq.
  - intros Hne. by apply list_insert_insert_ne.
Qed.

End Composition.

Lemma delete_undoes_typing_witness :
  let otp := [js "1"; []; []; []] in
  let typed := next_otp otp (handleChange 4 otp 1 (js "5")) in
  next_otp typed (handleChange 4 typed 1 []) = otp.
Proof.
  apply (delete_undoes_typing 4 [js "1"; []; []; []] 1 (js "5")).
  - reflexivity.
  - reflexivity.
Defined.

Lemma changes_compose_witness :
  let change otp index value :=
    next_otp otp (handleChange 4 otp index value) in
  change (change (initial 4) 0 (js "1")) 2 (js "3")
  = change (change (initial 4) 2 (js "3")) 0 (js "1").
Proof.
  apply (changes_compose 4 (initial 4) 0 2 (js "1") (js "3")).
  - simpl. lia.
  - simpl. lia.
  - reflexivity.
  - reflexivity.
  - discriminate.
Defined.

(** ** Where a click can send the focus *)

Section ClickTarget.

Implicit Types (otp : list js_string) (index : nat).

(** A search that does not return -1 returns the index of the first
    element that satisfies the test. *)
Lemma findIndex_from_found p (a : list js_string) (k : Z) :
  (0 ≤ k)%Z →
  findIndex_from p a k ≠ (-1)%Z →
  ∃ m y, findIndex_from p a k = (k + Z.of_nat m)%Z
         ∧ a !! m = Some y ∧ p y = true
         ∧ ∀ i z, (i < m)%nat → a !! i = Some z → p z = false.
Proof.
  revert k. induction a as [|x a IH]; intros k Hk Hfound; [done|].
  simpl in *. destruct (p x) eqn:Hx.
  - exists 0%nat, x. repeat split; [lia|done..|intros; lia].
  - destruct (IH (k + 1)%Z ltac:(lia) Hfound)
      as (m & y & Heq & Hy & Hpy & Hmin).
    exists (S m), y. repeat split; [lia|done..|].
    intros [|i] z Hi Hz; simpl in Hz; [congruence|].
    apply (Hmin i z); [lia|done].
Qed.

(** X13.  A click never sends the focus to a later slot or to a filled one: if
    it moves the focus at all, it moves it once, to the first empty slot,
    and that slot lies before the clicked one. *)
Theorem click_focus_target otp index k :
  k ∈ focus_calls (handleClick otp index) →
  focus_calls (handleClick otp index) = [k]
  ∧ (k < index)%nat
  ∧ otp !! k = Some []
  ∧ ∀ j, (j < k)%nat → otp !! j ≠ Some [].
Proof.
  unfold handleClick. autorewrite with effects. simpl.
  destruct (bool_decide (0 < index)%nat && falsy (otp !! (index - 1)%nat))
    eqn:Hguard; [|by intros ?%elem_of_nil].
  apply andb_true_iff in Hguard as [Hpos%bool_decide_eq_true Hprev].
  case_decide as Hfound; [|by intros ?%elem_of_nil].
  destruct (findIndex_from_found _ otp 0 ltac:(lia) Hfound)
    as (m & y & Heq & Hy & Hempty & Hmin).
  apply negb_true_iff, truthy_false in Hempty. subst y.
  unfold findIndex. rewrite Heq, Z.add_0_l, Nat2Z.id.
  rewrite focus_calls_focus_ref by (by eapply lookup_lt_Some).
  intros ->%list_elem_of_singleton. repeat split; [|done|].
  - destruct (otp !! (index - 1)%nat) as [s|] eqn:Hs.
    + destruct (decide (m < index)%nat) as [|Hge]; [done|].
      simpl in Hprev. apply negb_true_iff in Hprev.
      specialize (Hmin (index - 1)%nat s ltac:(lia) Hs).
      simpl in Hmin. by rewrite Hprev in Hmin.
    + apply lookup_ge_None in Hs. apply lookup_lt_Some in Hy. lia.
  - intros j Hj Hnil. by specialize (Hmin j [] Hj Hnil).
Qed.

End ClickTarget.

Lemma click_focus_target_witness :
  focus_calls (handleClick [js "1"; []; js "3"; []; js "5"] 4) = [1%nat]
  ∧ (1 < 4)%nat.
Proof.
  destruct (click_focus_target [js "1"; []; js "3"; []; js "5"] 4 1)
    as (Hcalls & Hlt & _).
  - vm_compute. apply list_elem_of_here.
  - split; [exact Hcalls|exact Hlt].
Defined.

(** ** The states the rendered inputs can produce *)

Section TextInputs.

Context (length : nat).
Implicit Types (otp : list js_string) (index : nat) (value : js_string).

(** What a run through the rendered inputs can reach, a run can reach. *)
Lemma reachable_by_inputs_reachable otp :
  reachable_by_inputs length otp → reachable length otp.
Proof. induction 1; by constructor. Qed.

(** Every storable character but LF and CR ends a text that a text input
    can report and that the change handler accepts. *)
Lemma slot_character_input_text (c : N) :
  slot_character c = true → newline c = false →
  ∃ value, isNaN_Number value = false ∧ last value = Some c
           ∧ text_input_value value = true.
Proof.
  unfold slot_character. intros Hc Hnl.
  destruct (StrWhiteSpaceChar c) eqn:Hws.
  { exists [c]. rewrite isNaN_Number_single, Hws. simpl. by rewrite Hnl. }
  destruct (HexDigit c) eqn:Hhex.
  { exists [48; 120; c]%N. split; [by apply isNaN_Number_hex|].
    simpl. by rewrite Hnl. }
  simpl in Hc. apply orb_true_iff in Hc as [->%N.eqb_eq| ->%N.eqb_eq].
  - by exists (js "1.").
  - by exists (js "Infinity").
Qed.

Lemma text_input_value_last_character value :
  text_input_value value = true →
  text_input_value (last_character value) = true.
Proof.
  unfold text_input_value, last_character. intros Hall.
  destruct (last value) as [c|] eqn:Hlast; [|done].
  simpl. by rewrite (forallb_last _ _ _ Hall Hlast).
Qed.

(** Filling the slots from the left: the first [k] slots of a target state
    can be reached with the rest still empty. *)
Lemma reachable_by_inputs_filled otp k :
  List.length otp = length →
  Forall (λ s, stored_value s && text_input_value s = true) otp →
  (k ≤ length)%nat →
  reachable_by_inputs length (take k otp ++ replicate (length - k) []).
Proof.
  intros Hlen Hall. induction k as [|k IH]; intros Hk.
  { rewrite take_0, Nat.sub_0_r. apply by_inputs_mount. }
  destruct (lookup_lt_is_Some_2 otp k) as [s Hs]; [lia|].
  assert (∃ value, isNaN_Number value = false ∧ last_character value = s
                   ∧ text_input_value value = true)
    as (value & Hnum & Hvalue & Hinput).
  { pose proof (proj1 (Forall_lookup _ _) Hall k s Hs) as Hstored.
    apply andb_true_iff in Hstored as [Hstored Htext].
    destruct s as [|c [|d s]]; [by exists []| |done].
    simpl in Htext. rewrite andb_true_r in Htext.
    apply negb_true_iff in Htext.
    destruct (slot_character_input_text c Hstored Htext)
      as (value & Hnum & Hlast & Hinput).
    exists value. by rewrite last_character_Some. }
  pose proof (by_inputs_event length _ (Change k value) (IH ltac:(lia)))
    as Hstep.
  simpl in Hstep. rewrite length_app, length_take, length_replicate in Hstep.
  specialize (Hstep ltac:(lia) Hinput).
  rewrite next_otp_handleChange, array_set_in_range in Hstep
    by (done || rewrite length_app, length_take, length_replicate; lia).
  rewrite Hvalue in Hstep.
  replace (length - k)%nat with (S (length - S k)) in Hstep by lia.
  rewrite (insert_app_r_alt _ _ k) in Hstep by (rewrite length_take; lia).
  rewrite length_take in Hstep.
  replace (k - k `min` List.length otp)%nat with 0%nat in Hstep by lia.
  simpl in Hstep.
  by rewrite (take_S_r otp k s), <- app_assoc.
Qed.

(** X14.  The states the component reaches through its text inputs are
    exactly the sequences of [length] slots that each are empty or hold one
    storable character other than LF and CR. *)
Theorem reachable_by_inputs_iff otp :
  reachable_by_inputs length otp
  ↔ List.length otp = length
    ∧ Forall (λ s, stored_value s && text_input_value s = true) otp.
Proof.
  split.
  - induction 1 as [|otp e _ [IHlen IHall] Hslot Hinput].
    { unfold initial. split; [apply length_replicate|].
      by apply Forall_replicate. }
    destruct e as [index value|index|index key]; simpl in *.
    + destruct (isNaN_Number value) eqn:Hnum.
      { by rewrite handleChange_rejected. }
      rewrite next_otp_handleChange, array_set_in_range by done.
      split; [by rewrite length_insert|].
      apply Forall_insert; [done|]. apply andb_true_iff.
      auto using stored_value_last_character,
        text_input_value_last_character.
    + by rewrite next_otp_handleClick.
    + by rewrite next_otp_handleKeyDown.
  - intros [Hlen Hall].
    pose proof (reachable_by_inputs_filled otp length Hlen Hall ltac:(lia))
      as Hfill.
    rewrite Nat.sub_diag, app_nil_r, take_ge in Hfill by lia. done.
Qed.

End TextInputs.

End OtpInput.
